(** * Text_To_Speech: the page script [index.js] and its contract

    The script creates one [SpeechSynthesisUtterance], keeps the list of
    voices the browser reports, mirrors that list into a [<select>] and, on a
    button click, copies the textarea into the utterance and hands the
    utterance to [window.speechSynthesis].

    The embedding follows the script statement by statement:
    - the utterance is an object in a store, reached through the reference
      bound to [speech]; the engine's queue holds references, not copies;
    - the three listeners are functions from page state to page state, taking
      what they read from the platform or the DOM as an argument; the change
      listener, which can throw, also says how it ended;
    - the engine is the platform's; of it the development keeps the queue
      of pending utterances, as the notes in [learned.md] and the
      specification describe it. *)

From Stdlib Require Import Ascii QArith Qcanon.
From stdpp Require Import base strings list gmap pretty numbers.

Close Scope Q_scope.

(** ** Data *)

(** A [SpeechSynthesisVoice], with the properties [learned.md] lists. *)
Record Voice := mkVoice {
  name : string;
  lang : string;
  voice_default : bool;
  localService : bool;
  voiceURI : string
}.

(** References to objects of the page. *)
Definition loc := nat.

(** A [SpeechSynthesisUtterance].  [voice = None] is the script's
    [undefined] (read back as [null]): the engine then uses its default
    voice. *)
Record Utterance := mkUtterance {
  text : string;
  voice : option Voice;
  rate : Qc;
  pitch : Qc;
  volume : Qc
}.

(** An [<option>] element as [new Option(text, value)] builds it. *)
Record DomOption := mkOption {
  opt_text : string;
  opt_value : string
}.

(** The two property writes of the script: [u.text = t] and [u.voice = v]. *)
Definition with_text (t : string) (u : Utterance) : Utterance :=
  mkUtterance t (voice u) (rate u) (pitch u) (volume u).

Definition with_voice (v : option Voice) (u : Utterance) : Utterance :=
  mkUtterance (text u) v (rate u) (pitch u) (volume u).

(** [new SpeechSynthesisUtterance()]: empty text, no voice, the default rate
    and pitch that [learned.md] gives (1) and the platform's default volume
    (1). *)
Definition new_SpeechSynthesisUtterance : Utterance :=
  mkUtterance "" None 1%Qc 1%Qc 1%Qc.

(** ** JavaScript arrays read by a property key *)

(** The element of the array [xs] under the string [key]: the element at
    index [i] is the property named by the decimal form of [i], so a key that
    is not the decimal form of an index inside [xs] names no element.
    [js_get_from i xs key] scans [xs] whose first element has index [i]. *)
Fixpoint js_get_from {A} (i : nat) (xs : list A) (key : string) : option A :=
  match xs with
  | [] => None
  | x :: rest =>
      if String.eqb (pretty i) key then Some x
      else js_get_from (S i) rest key
  end.

Definition js_get {A} (xs : list A) (key : string) : option A :=
  js_get_from 0 xs key.

(** The string-named properties every array has besides its elements: its
    own [length] and those it inherits from [Array.prototype] and
    [Object.prototype].  Reading one gives a number, a function or an object,
    never [undefined] and never an element. *)
Definition array_property_names : list string :=
  [ "length"; "at"; "concat"; "constructor"; "copyWithin"; "entries"; "every";
    "fill"; "filter"; "find"; "findIndex"; "findLast"; "findLastIndex"; "flat";
    "flatMap"; "forEach"; "includes"; "indexOf"; "join"; "keys";
    "lastIndexOf"; "map"; "pop"; "push"; "reduce"; "reduceRight"; "reverse";
    "shift"; "slice"; "some"; "sort"; "splice"; "toLocaleString";
    "toReversed"; "toSorted"; "toSpliced"; "toString"; "unshift"; "values";
    "with"; "hasOwnProperty"; "isPrototypeOf"; "propertyIsEnumerable";
    "valueOf"; "__proto__"; "__defineGetter__"; "__defineSetter__";
    "__lookupGetter__"; "__lookupSetter__" ]%string.

Definition is_array_property (key : string) : bool :=
  existsb (String.eqb key) array_property_names.

(** What [xs[key]] evaluates to: an element, [undefined], or the value of a
    property of the array itself. *)
Inductive JsRead (A : Type) :=
  | JsUndefined
  | JsElement (x : A)
  | JsProperty.
Arguments JsUndefined {A}.
Arguments JsElement {A} x.
Arguments JsProperty {A}.

(** [xs[key]] for an array [xs] and a string [key]. *)
Definition js_read {A} (xs : list A) (key : string) : JsRead A :=
  match js_get xs key with
  | Some x => JsElement x
  | None => if is_array_property key then JsProperty else JsUndefined
  end.

(** The first character is a decimal digit. *)
Definition starts_with_digit (s : string) : bool :=
  match s with
  | String c _ =>
      match c with
      | "0" | "1" | "2" | "3" | "4" | "5" | "6" | "7" | "8" | "9" => true
      | _ => false
      end%char
  | EmptyString => false
  end.

(** An [<option>] without label and value. *)
Definition blank_option : DomOption := mkOption "" "".

(** [opts[i] = o] on an [HTMLOptionsCollection]: replaces the option at [i]
    when there is one; otherwise the collection is first padded with blank
    options up to [i] and [o] is appended. *)
Definition options_set (i : nat) (o : DomOption) (opts : list DomOption)
  : list DomOption :=
  if decide (i < length opts) then <[i := o]> opts
  else opts ++ replicate (i - length opts) blank_option ++ [o].

(** [new Option(voice.name, i)]: the numeric [i] is stored as its string. *)
Definition new_Option (label : string) (i : nat) : DomOption :=
  mkOption label (pretty i).

(** [voiceSelect.value] when the option at position [k] is the chosen one:
    that option's value, or the empty string when there is none. *)
Definition select_value (opts : list DomOption) (k : nat) : string :=
  from_option opt_value "" (opts !! k).

(** ** The speech engine *)

(** Modelled from the spec: the engine ([window.speechSynthesis]) belongs to
    the platform and its code is not part of the repository.  What is kept of
    it is its "internal FIFO queue of pending utterances" (section 4.1):
    the handles of the utterance objects handed to [speak], oldest first, the
    head being the one that is spoken. *)
Definition SpeechQueue := list loc.

(** Modelled from the spec: [speechSynthesis.speak(utterance)] of the absent
    engine.  Section 4.1: it "appends to the engine's internal FIFO queue of
    pending utterances; does not preempt an utterance already playing";
    [learned.md]: it "adds the utterance to the speech queue". *)
Definition speechSynthesis_speak (l : loc) (q : SpeechQueue) : SpeechQueue :=
  q ++ [l].

(** Modelled from the spec: the progress the absent engine makes on its own
    (section 4.1, [speaking -> {ended | errored}]): the utterance that is
    spoken ends or fails and leaves the queue; the next one is spoken. *)
Definition utterance_done (q : SpeechQueue) : SpeechQueue := tail q.

(** ** The page *)

(** Everything the script reads and writes: the object store with the
    utterance behind [speech], the array [voices], the options of
    [voiceSelect] and the engine's queue. *)
Record Page := mkPage {
  heap : gmap loc Utterance;
  speech : loc;
  voices : list Voice;
  voiceSelect : list DomOption;
  speechSynthesis : SpeechQueue
}.

(** [new]: the object is stored under a reference not in use. *)
Definition alloc (u : Utterance) (h : gmap loc Utterance)
  : loc * gmap loc Utterance :=
  let l := fresh (dom h) in (l, <[l := u]> h).

(** Lines 1 to 5: the state after the script has loaded in a page whose
    [<select>] holds [select_options]. *)
Definition init (select_options : list DomOption) : Page :=
  let '(l, h) := alloc new_SpeechSynthesisUtterance ∅ in
  mkPage h l [] select_options [].

(** Line 14: [voices.forEach((voice, i) => (voiceSelect.options[i] =
    new Option(voice.name, i)))], from index [i] on. *)
Fixpoint forEach_options (i : nat) (vs : list Voice) (opts : list DomOption)
  : list DomOption :=
  match vs with
  | [] => opts
  | v :: rest =>
      forEach_options (S i) rest (options_set i (new_Option (name v) i) opts)
  end.

(** Lines 10 to 15, the [onvoiceschanged] handler; [getVoices] is what
    [window.speechSynthesis.getVoices()] returns. *)
Definition onvoiceschanged (getVoices : list Voice) (σ : Page) : Page :=
  mkPage (alter (with_voice (getVoices !! 0%nat)) (speech σ) (heap σ))
         (speech σ)
         getVoices
         (forEach_options 0 getVoices (voiceSelect σ))
         (speechSynthesis σ).

(** [speech.voice = x] for an [x] the setter accepts. *)
Definition write_voice (x : option Voice) (σ : Page) : Page :=
  mkPage (alter (with_voice x) (speech σ) (heap σ))
         (speech σ) (voices σ) (voiceSelect σ) (speechSynthesis σ).

(** How a listener ends: it returns, or it throws; either way it leaves a
    page behind. *)
Inductive JsError := TypeError.

Inductive Completion :=
  | Returns (σ : Page)
  | Throws (e : JsError) (σ : Page).

Definition page_of (c : Completion) : Page :=
  match c with Returns σ | Throws _ σ => σ end.

(** Lines 17 to 19, the [change] listener of the select; [value] is
    [voiceSelect.value].  The setter of [speech.voice] takes a voice, takes
    [undefined] as no voice, and throws a [TypeError] for anything else
    before it writes. *)
Definition change_listener (value : string) (σ : Page) : Completion :=
  match js_read (voices σ) value with
  | JsElement v => Returns (write_voice (Some v) σ)
  | JsUndefined => Returns (write_voice None σ)
  | JsProperty => Throws TypeError σ
  end.

(** The page the [change] listener leaves: an exception thrown by a listener
    is reported and the page goes on. *)
Definition onchange (value : string) (σ : Page) : Page :=
  page_of (change_listener value σ).
Arguments onchange : simpl never.

(** Line 23: [speech.text = ...]. *)
Definition setText (t : string) (σ : Page) : Page :=
  mkPage (alter (with_text t) (speech σ) (heap σ))
         (speech σ) (voices σ) (voiceSelect σ) (speechSynthesis σ).

(** Line 24: [window.speechSynthesis.speak(speech)]. *)
Definition speak (σ : Page) : Page :=
  mkPage (heap σ) (speech σ) (voices σ) (voiceSelect σ)
         (speechSynthesis_speak (speech σ) (speechSynthesis σ)).

(** Lines 22 to 26, the [click] listener of the button; [textarea] is the
    value of the textarea. *)
Definition onclick (textarea : string) (σ : Page) : Page :=
  speak (setText textarea σ).

(** The operations of the specification that the script has: the reload
    notification is the [onvoiceschanged] handler and the voice setter is the
    [change] listener. *)
Definition onCatalogReady := onvoiceschanged.
Definition setVoice := onchange.

(** ** Runs of the page *)

(** What can happen to a loaded page: the platform reports its voices, the
    user picks the option at position [k], the user clicks the button with
    [textarea] typed in, or the engine is done with the utterance it
    speaks. *)
Inductive Event :=
  | VoicesChanged (getVoices : list Voice)
  | Change (k : nat)
  | Click (textarea : string)
  | UtteranceDone.

Definition dispatch (σ : Page) (ev : Event) : Page :=
  match ev with
  | VoicesChanged vs => onvoiceschanged vs σ
  | Change k => onchange (select_value (voiceSelect σ) k) σ
  | Click t => onclick t σ
  | UtteranceDone =>
      mkPage (heap σ) (speech σ) (voices σ) (voiceSelect σ)
             (utterance_done (speechSynthesis σ))
  end.

Definition run (evs : list Event) (σ : Page) : Page := foldl dispatch σ evs.

(** The events that run a listener of the script. *)
Definition is_listener (ev : Event) : bool :=
  match ev with UtteranceDone => false | _ => true end.

(** The states a loaded page can be in. *)
Inductive reachable : Page → Prop :=
  | reachable_init opts : reachable (init opts)
  | reachable_step σ ev : reachable σ → reachable (dispatch σ ev).

(** ** Observations *)

(** The utterance behind a reference. *)
Definition deref (σ : Page) (l : loc) : option Utterance := heap σ !! l.

(** [speech.voice], the selected voice. *)
Definition selected_voice (σ : Page) : option Voice :=
  deref σ (speech σ) ≫= voice.

(** [speech.text]. *)
Definition current_text (σ : Page) : option string :=
  text <$> deref σ (speech σ).

(** The handles in the engine's queue, oldest first. *)
Definition pending (σ : Page) : list loc := speechSynthesis σ.

(** The script's utterance exists in the store. *)
Definition speech_allocated (σ : Page) : Prop := is_Some (deref σ (speech σ)).

(** The effective rate, pitch and volume: those of the script's utterance. *)
Definition effective_rate (σ : Page) : option Qc := rate <$> deref σ (speech σ).
Definition effective_pitch (σ : Page) : option Qc := pitch <$> deref σ (speech σ).
Definition effective_volume (σ : Page) : option Qc := volume <$> deref σ (speech σ).

(** In every option the value is the decimal form of the position, as line
    14 writes it. *)
Definition values_are_positions (opts : list DomOption) : Prop :=
  ∀ k o, opts !! k = Some o → opt_value o = pretty k.

(** ** Invariants *)

(** No event creates an utterance or rebinds [speech], and every entry of
    the queue is the script's utterance. *)
Record page_inv (σ : Page) : Prop := mk_page_inv {
  inv_one_object : dom (heap σ) = {[speech σ]};
  inv_queue : ∀ l, l ∈ pending σ → l = speech σ
}.

(** The selected voice is one of the catalog the script last read. *)
Definition voice_in_catalog (σ : Page) : Prop :=
  speech_allocated σ ∧ ∀ v, selected_voice σ = Some v → v ∈ voices σ.

(** ** Concrete pages *)

Definition voice_A : Voice := mkVoice "A" "en-US" true true "A".
Definition voice_B : Voice := mkVoice "B" "en-GB" false true "B".

(** The page after the platform reported [A] and [B] and the user picked
    [B]. *)
Definition page_B_chosen : Page :=
  run [VoicesChanged [voice_A; voice_B]; Change 1] (init []).

(** A page whose markup has a third option valued ["length"], after the
    platform reported [A] and [B] and the user picked [B]. *)
Definition page_authored_option : Page :=
  run [VoicesChanged [voice_A; voice_B]; Change 1]
      (init [blank_option; blank_option; mkOption "count" "length"]).

(** The page after two clicks. *)
Definition page_two_clicks : Page :=
  run [VoicesChanged [voice_A; voice_B]; Click "one"; Click "two"] (init []).

(** ** Summaries of a run *)

(** The first options of the select are the catalog: position [i] holds the
    option line 14 builds for voice [i]. *)
Definition catalog_mirrored (σ : Page) : Prop :=
  ∀ i v, voices σ !! i = Some v → voiceSelect σ !! i = Some (new_Option (name v) i).

(** The length of the longest snapshot reported in [evs]. *)
Fixpoint largest_snapshot (evs : list Event) : nat :=
  match evs with
  | [] => 0
  | VoicesChanged vs :: rest => length vs `max` largest_snapshot rest
  | _ :: rest => largest_snapshot rest
  end.

(** The textarea of the latest click of [evs]; [before] when [evs] has no
    click. *)
Fixpoint last_click (before : string) (evs : list Event) : string :=
  match evs with
  | [] => before
  | Click t :: rest => last_click t rest
  | _ :: rest => last_click before rest
  end.

(** The number of clicks in [evs]. *)
Fixpoint clicks (evs : list Event) : nat :=
  match evs with
  | [] => 0
  | Click _ :: rest => S (clicks rest)
  | _ :: rest => clicks rest
  end.

(** The event is not a report of a catalog with a voice in it. *)
Definition reports_no_voice (ev : Event) : bool :=
  match ev with VoicesChanged (_ :: _) => false | _ => true end.

(** * Properties *)

(** ** Array reads *)

Section ArrayReads.
Context {A : Type}.
Implicit Types (xs : list A) (key : string).

Lemma js_get_from_pretty xs (i n : nat) :
  js_get_from i xs (pretty (i + n)%nat) = xs !! n.
Proof.
  revert i n. induction xs as [|x rest IH]; intros i n; [done|].
  cbn [js_get_from]. destruct n as [|m].
  - rewrite Nat.add_0_r, String.eqb_refl. done.
  - destruct (String.eqb_spec (pretty i) (pretty (i + S m)%nat)) as [Heq|_].
    + apply (inj pretty) in Heq. lia.
    + replace (i + S m)%nat with (S i + m)%nat by lia. apply IH.
Qed.

(** Reading under the decimal form of [n] is reading at index [n]. *)
Lemma js_get_pretty xs (n : nat) : js_get xs (pretty n) = xs !! n.
Proof. apply (js_get_from_pretty xs 0 n). Qed.

Lemma js_get_from_Some xs (i : nat) key (x : A) :
  js_get_from i xs key = Some x →
  ∃ n, key = pretty (i + n)%nat ∧ xs !! n = Some x.
Proof.
  revert i. induction xs as [|y rest IH]; intros i; [done|].
  cbn [js_get_from].
  destruct (String.eqb_spec (pretty i) key) as [<-|_].
  - intros [= ->]. exists 0%nat. by rewrite Nat.add_0_r.
  - intros [n [-> Hn]]%IH. exists (S n). split; [f_equal; lia|done].
Qed.

Lemma js_get_elem_of xs key (x : A) : js_get xs key = Some x → x ∈ xs.
Proof.
  intros [n [_ Hn]]%js_get_from_Some. by eapply list_elem_of_lookup_2.
Qed.


End ArrayReads.

Lemma pretty_N_go_nonempty (x : N) (s : string) :
  s ≠ ""%string → pretty_N_go x s ≠ ""%string.
Proof.
  revert s. induction (N.lt_wf_0 x) as [x _ IH]; intros s Hs.
  destruct (decide (x = 0)%N) as [->|Hx]; [by rewrite pretty_N_go_0|].
  rewrite pretty_N_go_step by lia. apply IH; [apply N.div_lt; lia|done].
Qed.

Lemma pretty_nat_nonempty (n : nat) : pretty n ≠ ""%string.
Proof.
  unfold pretty, pretty_nat, pretty, pretty_N. case_decide; [done|].
  rewrite pretty_N_go_step by lia. by apply pretty_N_go_nonempty.
Qed.

(** The empty string, the value of a select without a chosen option, names
    no element. *)
Lemma js_get_empty_key {A} (xs : list A) : js_get xs "" = None.
Proof.
  destruct (js_get xs "") as [x|] eqn:Hget; [|done].
  apply js_get_from_Some in Hget as [n [Hkey _]].
  by destruct (pretty_nat_nonempty (0 + n)).
Qed.

Lemma pretty_N_go_digit (x : N) (s : string) :
  starts_with_digit s = true → starts_with_digit (pretty_N_go x s) = true.
Proof.
  revert s. induction (N.lt_wf_0 x) as [x _ IH]; intros s Hs.
  destruct (decide (x = 0)%N) as [->|Hx]; [by rewrite pretty_N_go_0|].
  rewrite pretty_N_go_step by lia. apply IH; [apply N.div_lt; lia|].
  simpl. unfold pretty_N_char. by repeat case_match.
Qed.

Lemma pretty_starts_with_digit (n : nat) : starts_with_digit (pretty n) = true.
Proof.
  unfold pretty, pretty_nat, pretty, pretty_N. case_decide; [done|].
  rewrite pretty_N_go_step by lia. apply pretty_N_go_digit.
  simpl. unfold pretty_N_char. by repeat case_match.
Qed.

(** No property name of an array is the decimal form of a number. *)
Lemma is_array_property_pretty (n : nat) : is_array_property (pretty n) = false.
Proof.
  destruct (is_array_property (pretty n)) eqn:Hprop; [|done].
  apply existsb_exists in Hprop as (name & Hin & Heq%String.eqb_eq).
  assert (forallb (λ s, negb (starts_with_digit s)) array_property_names = true)
    as Hall by reflexivity.
  rewrite forallb_forall in Hall. specialize (Hall _ Hin).
  by rewrite <-Heq, pretty_starts_with_digit in Hall.
Qed.

(** Reading under the decimal form of [n]: the element at [n], or
    [undefined] past the end. *)
Lemma js_read_pretty {A} (xs : list A) (n : nat) :
  js_read xs (pretty n) = from_option JsElement JsUndefined (xs !! n).
Proof.
  unfold js_read. rewrite js_get_pretty.
  destruct (xs !! n); [done|]. simpl. by rewrite is_array_property_pretty.
Qed.

Lemma js_read_empty_key {A} (xs : list A) : js_read xs "" = JsUndefined.
Proof. unfold js_read. by rewrite js_get_empty_key. Qed.

Lemma js_read_element {A} (xs : list A) key (x : A) :
  js_read xs key = JsElement x ↔ js_get xs key = Some x.
Proof.
  unfold js_read. destruct (js_get xs key); [|by destruct (is_array_property key)].
  split; by intros [= ->].
Qed.

(** ** The options of the select *)

Lemma options_set_length i o opts :
  (i ≤ length opts)%nat →
  length (options_set i o opts) = (S i `max` length opts)%nat.
Proof.
  intros Hi. unfold options_set. case_decide.
  - rewrite length_insert. lia.
  - rewrite !length_app, length_replicate. simpl. lia.
Qed.

Lemma options_set_lookup i o opts j :
  (i ≤ length opts)%nat →
  options_set i o opts !! j = if decide (j = i) then Some o else opts !! j.
Proof.
  intros Hi. unfold options_set. case_decide as Hlt.
  - case_decide as Hj.
    + subst j. by apply list_lookup_insert_eq.
    + by apply list_lookup_insert_ne.
  - assert (i = length opts) as -> by lia.
    rewrite Nat.sub_diag. simpl. case_decide as Hj.
    + subst j. by rewrite lookup_app_r, Nat.sub_diag.
    + destruct (decide (j < length opts)%nat).
      * by rewrite lookup_app_l.
      * rewrite lookup_ge_None_2 by (rewrite length_app; simpl; lia).
        symmetry. apply lookup_ge_None_2. lia.
Qed.

Lemma forEach_options_length vs : ∀ i opts,
  (i ≤ length opts)%nat →
  length (forEach_options i vs opts) = ((i + length vs) `max` length opts)%nat.
Proof.
  induction vs as [|v rest IH]; intros i opts Hi; simpl; [lia|].
  rewrite IH; rewrite options_set_length by done; lia.
Qed.

(** The loop of line 14 started at [i]: the positions [i .. i + n - 1] get
    the options of the [n] voices, every other position keeps its option. *)
Lemma forEach_options_lookup vs : ∀ i opts j,
  (i ≤ length opts)%nat →
  forEach_options i vs opts !! j =
    if decide (i ≤ j < i + length vs)%nat
    then (λ v, new_Option (name v) j) <$> vs !! (j - i)%nat
    else opts !! j.
Proof.
  induction vs as [|v rest IH]; intros i opts j Hi; simpl.
  - case_decide; [lia|done].
  - rewrite IH by (rewrite options_set_length by done; lia).
    rewrite options_set_lookup by done.
    repeat case_decide; try lia.
    + replace (j - i)%nat with (S (j - S i)) by lia. done.
    + subst j. by rewrite Nat.sub_diag.
    + done.
Qed.

(** Running the loop of line 14 a second time over the same voices changes
    nothing. *)
Lemma forEach_options_idemp vs opts :
  forEach_options 0 vs (forEach_options 0 vs opts) = forEach_options 0 vs opts.
Proof.
  apply list_eq. intros j.
  rewrite (forEach_options_lookup vs 0 (forEach_options 0 vs opts)) by lia.
  case_decide; [|done].
  rewrite forEach_options_lookup by lia. by rewrite decide_True.
Qed.

Lemma forEach_options_values vs opts :
  values_are_positions opts → values_are_positions (forEach_options 0 vs opts).
Proof.
  intros Hopts k o. rewrite forEach_options_lookup by lia.
  case_decide; [|apply Hopts].
  destruct (vs !! (k - 0)%nat); simpl; [|done]. by intros [= <-].
Qed.

(** ** Writes to the script's utterance *)

Lemma alter_twice_const (f : Utterance → Utterance) l (h : gmap loc Utterance) :
  (∀ u, f (f u) = f u) → alter f l (alter f l h) = alter f l h.
Proof.
  intros Hf. apply map_eq. intros k.
  destruct (decide (k = l)) as [->|Hne].
  - rewrite !lookup_alter_eq. destruct (h !! l); simpl; [by rewrite Hf|done].
  - by rewrite !lookup_alter_ne.
Qed.

Lemma selected_voice_with_voice x l h vs opts q :
  selected_voice (mkPage (alter (with_voice x) l h) l vs opts q)
  = h !! l ≫= λ _, x.
Proof.
  unfold selected_voice, deref. simpl.
  rewrite lookup_alter_eq. by destruct (h !! l).
Qed.

Lemma selected_voice_onvoiceschanged vs σ :
  speech_allocated σ → selected_voice (onvoiceschanged vs σ) = vs !! 0%nat.
Proof.
  intros [u Hu]. unfold onvoiceschanged, deref in *.
  by rewrite selected_voice_with_voice, Hu.
Qed.

Lemma onchange_cases value σ :
  onchange value σ = σ ∨ ∃ x, onchange value σ = write_voice x σ.
Proof.
  unfold onchange, change_listener.
  destruct (js_read (voices σ) value); simpl; eauto.
Qed.

Lemma selected_voice_write_voice x σ :
  selected_voice (write_voice x σ) = deref σ (speech σ) ≫= λ _, x.
Proof. apply selected_voice_with_voice. Qed.

(** The voice after the change listener ran: the element read, none for
    [undefined], and the voice as it was when the setter threw. *)
Lemma selected_voice_onchange value σ :
  speech_allocated σ →
  selected_voice (onchange value σ)
  = match js_read (voices σ) value with
    | JsElement v => Some v
    | JsUndefined => None
    | JsProperty => selected_voice σ
    end.
Proof.
  intros [u Hu]. unfold onchange, change_listener, deref in *.
  destruct (js_read (voices σ) value); simpl; [| |done];
    by rewrite selected_voice_write_voice; unfold deref; rewrite Hu.
Qed.

Lemma selected_voice_onchange_index n σ :
  speech_allocated σ → selected_voice (onchange (pretty n) σ) = voices σ !! n.
Proof.
  intros Hσ. rewrite selected_voice_onchange, js_read_pretty by done.
  by destruct (voices σ !! n).
Qed.

Lemma selected_voice_onchange_empty σ :
  speech_allocated σ → selected_voice (onchange "" σ) = None.
Proof.
  intros Hσ. by rewrite selected_voice_onchange, js_read_empty_key.
Qed.

Lemma selected_voice_setText t σ :
  selected_voice (setText t σ) = selected_voice σ.
Proof.
  unfold selected_voice, deref. simpl.
  rewrite lookup_alter_eq. by destruct (heap σ !! speech σ).
Qed.

Lemma current_text_setText t σ :
  speech_allocated σ → current_text (setText t σ) = Some t.
Proof.
  intros [u Hu]. unfold current_text, deref in *. simpl.
  by rewrite lookup_alter_eq, Hu.
Qed.

(** The change listener either left the page as it was or wrote a voice. *)
Ltac pick_cases :=
  match goal with
  | |- context [onchange ?v ?σ] =>
      destruct (onchange_cases v σ) as [->|[? ->]]; unfold write_voice
  end.

(** The change listener touches nothing but the voice. *)
Lemma onchange_frame value σ :
  speech (onchange value σ) = speech σ ∧
  voices (onchange value σ) = voices σ ∧
  voiceSelect (onchange value σ) = voiceSelect σ ∧
  speechSynthesis (onchange value σ) = speechSynthesis σ.
Proof. by pick_cases. Qed.

Lemma voices_onchange value σ : voices (onchange value σ) = voices σ.
Proof. apply onchange_frame. Qed.

Lemma pending_onchange value σ : pending (onchange value σ) = pending σ.
Proof. apply onchange_frame. Qed.

Lemma speech_onchange value σ : speech (onchange value σ) = speech σ.
Proof. apply onchange_frame. Qed.

Lemma voiceSelect_onchange value σ :
  voiceSelect (onchange value σ) = voiceSelect σ.
Proof. apply onchange_frame. Qed.

Lemma speech_allocated_dispatch σ ev :
  speech_allocated σ → speech_allocated (dispatch σ ev).
Proof.
  intros [u Hu]. unfold speech_allocated, deref in *.
  destruct ev; simpl; try pick_cases; simpl;
    rewrite ?lookup_alter_eq, ?Hu; by eexists.
Qed.

(** A field that [f] does not change reads the same after [f] was applied to
    the utterance. *)
Lemma field_after_alter {B} (field : Utterance → B) f l (h : gmap loc Utterance) :
  (∀ u, field (f u) = field u) →
  field <$> alter f l h !! l = field <$> h !! l.
Proof.
  intros Hf. rewrite lookup_alter_eq. destruct (h !! l); simpl; [|done].
  by rewrite Hf.
Qed.

Lemma effective_dispatch {B} (field : Utterance → B) σ ev :
  (∀ v u, field (with_voice v u) = field u) →
  (∀ t u, field (with_text t u) = field u) →
  field <$> deref (dispatch σ ev) (speech (dispatch σ ev))
  = field <$> deref σ (speech σ).
Proof.
  intros Hv Ht. unfold deref.
  destruct ev; simpl; try pick_cases; simpl; try done;
    by apply field_after_alter.
Qed.

(** ** Invariants of a run *)

Lemma page_inv_allocated σ : page_inv σ → speech_allocated σ.
Proof.
  intros [Hdom _]. unfold speech_allocated, deref.
  apply elem_of_dom. rewrite Hdom. set_solver.
Qed.

Lemma page_inv_init opts : page_inv (init opts).
Proof.
  split.
  - unfold init, alloc. simpl. rewrite dom_insert_L, dom_empty_L. set_solver.
  - intros l Hl. by inversion Hl.
Qed.

Lemma page_inv_dispatch σ ev : page_inv σ → page_inv (dispatch σ ev).
Proof.
  intros [Hdom Hq]. unfold pending in *.
  destruct ev as [vs|k|t|]; split; simpl; try pick_cases; simpl;
    rewrite ?dom_alter_L; try done.
  - unfold speechSynthesis_speak.
    intros l [Hl| ->%list_elem_of_singleton]%elem_of_app; [by apply Hq|done].
  - intros l Hl. apply Hq. unfold utterance_done in Hl.
    destruct (speechSynthesis σ); [done|]. by apply elem_of_cons; right.
Qed.

Lemma reachable_inv σ : reachable σ → page_inv σ.
Proof.
  induction 1; [apply page_inv_init | by apply page_inv_dispatch].
Qed.

Lemma reachable_run evs σ : reachable σ → reachable (run evs σ).
Proof.
  revert σ. induction evs as [|ev evs IH]; intros σ Hσ; [done|].
  simpl. apply IH. by constructor.
Qed.

Lemma reachable_speech σ : reachable σ → speech σ = speech (init []).
Proof.
  induction 1 as [opts|σ ev _ IH]; [done|]. rewrite <-IH.
  destruct ev; simpl; try pick_cases; done.
Qed.

Lemma voice_in_catalog_dispatch σ ev :
  voice_in_catalog σ → voice_in_catalog (dispatch σ ev).
Proof.
  intros [Halloc Hv]. split; [by apply speech_allocated_dispatch|].
  intros v. destruct ev as [vs|k|t|]; cbn [dispatch].
  - rewrite selected_voice_onvoiceschanged by done.
    apply list_elem_of_lookup_2.
  - rewrite selected_voice_onchange, voices_onchange by done.
    destruct (js_read (voices σ) _) as [|v'|] eqn:Hread; [done| |apply Hv].
    intros [= <-]. by eapply js_get_elem_of, js_read_element.
  - change (selected_voice (onclick t σ)) with (selected_voice (setText t σ)).
    rewrite selected_voice_setText. apply Hv.
  - apply Hv.
Qed.

Lemma voice_in_catalog_run evs : ∀ σ,
  voice_in_catalog σ → voice_in_catalog (run evs σ).
Proof.
  induction evs as [|ev evs IH]; intros σ Hσ; [done|].
  simpl. by apply IH, voice_in_catalog_dispatch.
Qed.

(** In a page whose select started empty every option carries its position,
    so the change listener reads the catalog at the position of the option
    the user picked. *)
Lemma values_are_positions_run evs : ∀ σ,
  values_are_positions (voiceSelect σ) →
  values_are_positions (voiceSelect (run evs σ)).
Proof.
  induction evs as [|ev evs IH]; intros σ Hσ; [done|].
  simpl. apply IH. destruct ev; simpl; try pick_cases; try done.
  by apply forEach_options_values.
Qed.

Lemma values_are_positions_init : values_are_positions (voiceSelect (init [])).
Proof. intros k o Hk. by destruct k. Qed.

Lemma change_reads_position evs k :
  speech_allocated (run evs (init [])) →
  selected_voice (dispatch (run evs (init [])) (Change k))
  = voiceSelect (run evs (init [])) !! k ≫= λ _, voices (run evs (init [])) !! k.
Proof.
  intros Halloc. cbn [dispatch]. unfold select_value.
  destruct (voiceSelect (run evs (init [])) !! k) as [o|] eqn:Ho; simpl.
  - rewrite (values_are_positions_run evs _ values_are_positions_init k o Ho).
    by apply selected_voice_onchange_index.
  - by apply selected_voice_onchange_empty.
Qed.

(** ** Catalog reloads *)

(** C1.  A reload notification makes the script's catalog the new snapshot
    and resets the selected voice to the snapshot's first voice (to none when
    the snapshot is empty).  Hence a selected voice is always one of the
    latest snapshot, right after the reload and after anything that follows
    it; and a voice chosen before the reload is dropped for the first voice
    even when it is still in the new snapshot. *)
Theorem catalog_reload_resets_voice (σ : Page) (snapshot : list Voice) :
  speech_allocated σ →
  voices (onCatalogReady snapshot σ) = snapshot ∧
  selected_voice (onCatalogReady snapshot σ) = head snapshot ∧
  (∀ v, selected_voice (onCatalogReady snapshot σ) = Some v → v ∈ snapshot) ∧
  (∀ evs v,
     selected_voice (run evs (onCatalogReady snapshot σ)) = Some v →
     v ∈ voices (run evs (onCatalogReady snapshot σ))) ∧
  (∀ chosen first,
     selected_voice σ = Some chosen → chosen ∈ snapshot →
     head snapshot = Some first →
     selected_voice (onCatalogReady snapshot σ) = Some first).
Proof.
  intros Hσ.
  assert (selected_voice (onCatalogReady snapshot σ) = head snapshot) as Hsel.
  { unfold onCatalogReady. rewrite selected_voice_onvoiceschanged by done.
    by rewrite head_lookup. }
  assert (∀ v, selected_voice (onCatalogReady snapshot σ) = Some v → v ∈ snapshot)
    as Hin.
  { intros v. rewrite Hsel, head_lookup. apply list_elem_of_lookup_2. }
  split; [done|]. split; [done|]. split; [done|]. split.
  - intros evs. apply voice_in_catalog_run. split; [|exact Hin].
    apply (speech_allocated_dispatch σ (VoicesChanged snapshot) Hσ).
  - intros chosen first _ _ Hfirst. by rewrite Hsel.
Qed.

(** C3.  Running the reload handler a second time with the same snapshot
    changes nothing: the page is the same as after the first run, and so is
    the selected voice.  This holds for every snapshot, the empty one
    included. *)
Theorem onCatalogReady_idempotent (σ : Page) (snapshot : list Voice) :
  selected_voice (onCatalogReady snapshot (onCatalogReady snapshot σ))
  = selected_voice (onCatalogReady snapshot σ) ∧
  onCatalogReady snapshot (onCatalogReady snapshot σ) = onCatalogReady snapshot σ ∧
  selected_voice (onCatalogReady [] (onCatalogReady [] σ))
  = selected_voice (onCatalogReady [] σ).
Proof.
  assert (∀ s, onCatalogReady s (onCatalogReady s σ) = onCatalogReady s σ) as H.
  { intros s. unfold onCatalogReady, onvoiceschanged. simpl. f_equal.
    - apply alter_twice_const. done.
    - apply forEach_options_idemp. }
  by rewrite !H.
Qed.

(** ** Speaking *)

(** C2.  Each call of [speak] puts the script's utterance at the back of the
    engine's queue and leaves the entries before it where they are.  So two
    clicks with nothing ended in between, whether or not the engine has
    started on the first, add two entries in the order of the calls, and the
    utterance at the head of the queue, the one that is spoken, is still at
    the head after each call. *)
Theorem speak_twice_fifo (σ : Page) (t1 t2 : string) :
  pending (speak (speak σ)) = pending σ ++ [speech σ; speech σ] ∧
  pending (onclick t1 σ) = pending σ ++ [speech σ] ∧
  pending (onclick t2 (onclick t1 σ)) = pending (onclick t1 σ) ++ [speech σ] ∧
  pending (onclick t2 (onclick t1 σ)) = pending σ ++ [speech σ; speech σ] ∧
  (∀ playing,
     head (pending σ) = Some playing →
     head (pending (onclick t1 σ)) = Some playing) ∧
  (∀ playing,
     head (pending (onclick t1 σ)) = Some playing →
     head (pending (onclick t2 (onclick t1 σ))) = Some playing).
Proof.
  unfold pending, speechSynthesis_speak. simpl. unfold speechSynthesis_speak.
  rewrite <-!(assoc_L (++)). simpl.
  repeat split; try done; intros playing;
    by destruct (speechSynthesis σ).
Qed.

(** C6.  A click with an empty textarea is [setText ""] followed by [speak]:
    the engine's queue gets one more entry, the script's utterance, and the
    text of that utterance is the empty string.  Nothing in the listener
    looks at the text before it calls the engine. *)
Theorem empty_text_is_enqueued (σ : Page) :
  speech_allocated σ →
  onclick "" σ = speak (setText "" σ) ∧
  pending (speak (setText "" σ)) = pending σ ++ [speech σ] ∧
  list.last (pending (speak (setText "" σ))) = Some (speech σ) ∧
  text <$> deref (speak (setText "" σ)) (speech σ) = Some ""%string.
Proof.
  intros Hσ. split; [done|]. split; [done|]. split.
  - apply last_snoc.
  - apply (current_text_setText "" σ Hσ).
Qed.

(** ** Choosing a voice *)

(** C5.  The change listener ends silently, leaving the utterance without a
    voice (the engine's default), whenever the value of the select names
    neither a voice nor a property of the array: so for every index past the
    end of the catalog, for every index when the catalog is empty, and for
    the empty string.  When the value names a property of the array itself,
    such as [length], the setter of [speech.voice] throws a [TypeError] and
    the page, the voice included, stays as it was.  Either way the catalog
    and the queue are untouched and a click that follows still appends the
    utterance to the engine's queue. *)
Theorem setVoice_outcomes (σ : Page) (voiceRef : string) :
  (js_get (voices σ) voiceRef = None → is_array_property voiceRef = false →
     change_listener voiceRef σ = Returns (setVoice voiceRef σ) ∧
     selected_voice (setVoice voiceRef σ) = None) ∧
  (∀ n, (length (voices σ) ≤ n)%nat →
     change_listener (pretty n) σ = Returns (setVoice (pretty n) σ) ∧
     selected_voice (setVoice (pretty n) σ) = None) ∧
  (voices σ = [] → ∀ n : nat,
     change_listener (pretty n) σ = Returns (setVoice (pretty n) σ) ∧
     selected_voice (setVoice (pretty n) σ) = None) ∧
  (change_listener "" σ = Returns (setVoice "" σ) ∧
   selected_voice (setVoice "" σ) = None) ∧
  (js_get (voices σ) voiceRef = None → is_array_property voiceRef = true →
     change_listener voiceRef σ = Throws TypeError σ ∧
     setVoice voiceRef σ = σ) ∧
  voices (setVoice voiceRef σ) = voices σ ∧
  pending (setVoice voiceRef σ) = pending σ ∧
  (∀ t, pending (onclick t (setVoice voiceRef σ)) = pending σ ++ [speech σ]).
Proof.
  assert (∀ key, js_read (voices σ) key = JsUndefined →
    change_listener key σ = Returns (setVoice key σ) ∧
    selected_voice (setVoice key σ) = None) as Hsilent.
  { intros key Hread. unfold setVoice, onchange, change_listener.
    rewrite Hread. simpl. split; [done|].
    rewrite selected_voice_write_voice. by destruct (deref σ (speech σ)). }
  assert (∀ n, (length (voices σ) ≤ n)%nat →
    js_read (voices σ) (pretty n) = JsUndefined) as Hpast.
  { intros n Hn. by rewrite js_read_pretty, lookup_ge_None_2. }
  split.
  { intros Hnone Hprop. apply Hsilent. unfold js_read. by rewrite Hnone, Hprop. }
  split; [intros n Hn; by apply Hsilent, Hpast|].
  split.
  { intros Hvs n. apply Hsilent, Hpast. rewrite Hvs. simpl. lia. }
  split; [apply Hsilent, js_read_empty_key|].
  split.
  { intros Hnone Hprop. unfold setVoice, onchange, change_listener, js_read.
    by rewrite Hnone, Hprop. }
  unfold setVoice, onclick, pending.
  destruct (onchange_frame voiceRef σ) as (Hs & Hvs & _ & Hq).
  split; [done|]. split; [done|]. intros t. simpl. by rewrite Hq, Hs.
Qed.

(** C5 as stated fails on the script.  On a page whose select has an option
    valued ["length"], with [B] selected, picking that option reads
    [voices["length"]], which names no voice of the catalog; the listener
    throws a [TypeError] and the utterance keeps [B]: it does not end
    silently and the voice does not fall back to the engine's default. *)
Lemma setVoice_length_throws :
  select_value (voiceSelect page_authored_option) 2 = "length"%string ∧
  js_get (voices page_authored_option) "length" = None ∧
  selected_voice page_authored_option = Some voice_B ∧
  change_listener "length" page_authored_option
  = Throws TypeError page_authored_option ∧
  selected_voice (dispatch page_authored_option (Change 2)) = Some voice_B ∧
  selected_voice (setVoice "length" page_authored_option) ≠ None.
Proof. repeat split; done. Qed.

(** ** One utterance object *)

(** C9.  In every state of a run the store holds exactly one utterance, the
    one created when the script loaded; no event rebinds [speech] or creates
    another.  Every [speak] hands that same reference to the engine, so every
    entry of the queue is that reference: a later write to the text or the
    voice is what each pending entry, the one being spoken included, then
    shows.  After the change listener that is the voice it read, none when it
    read [undefined], and the voice as it was when the setter threw and
    nothing was written. *)
Theorem one_shared_utterance (σ : Page) :
  reachable σ →
  dom (heap σ) = {[speech σ]} ∧
  speech σ = speech (init []) ∧
  (∀ ev, speech (dispatch σ ev) = speech σ ∧
         dom (heap (dispatch σ ev)) = dom (heap σ)) ∧
  pending (speak σ) = pending σ ++ [speech σ] ∧
  (∀ l, l ∈ pending σ → l = speech σ) ∧
  (∀ t l, l ∈ pending (setText t σ) →
     text <$> deref (setText t σ) l = Some t) ∧
  (∀ t l, l ∈ pending (onclick t σ) →
     text <$> deref (onclick t σ) l = Some t) ∧
  (∀ value l, l ∈ pending (setVoice value σ) →
     deref (setVoice value σ) l ≫= voice = selected_voice (setVoice value σ) ∧
     deref (setVoice value σ) l ≫= voice
     = match js_read (voices σ) value with
       | JsElement v => Some v
       | JsUndefined => None
       | JsProperty => selected_voice σ
       end) ∧
  (∀ snapshot l, l ∈ pending (onCatalogReady snapshot σ) →
     deref (onCatalogReady snapshot σ) l ≫= voice = head snapshot).
Proof.
  intros Hreach. pose proof (reachable_inv _ Hreach) as Hinv.
  pose proof (page_inv_allocated _ Hinv) as Halloc.
  destruct Hinv as [Hdom Hq].
  split; [done|]. split; [by apply reachable_speech|].
  split.
  { intros ev. destruct ev; simpl; try pick_cases; simpl;
      by rewrite ?dom_alter_L. }
  split; [done|]. split; [done|].
  split; [|split; [|split]].
  - intros t l Hl. rewrite (Hq l Hl). by apply current_text_setText.
  - intros t l Hl.
    assert (l = speech σ) as ->.
    { apply elem_of_app in Hl as [Hl| ->%list_elem_of_singleton]; [|done].
      by apply Hq. }
    by apply (current_text_setText t σ).
  - intros value l Hl.
    destruct (onchange_frame value σ) as (Hs & _ & _ & Hp).
    unfold setVoice, pending in *. rewrite Hp in Hl.
    rewrite (Hq l Hl), <-Hs. split; [done|].
    by apply selected_voice_onchange.
  - intros snapshot l Hl. rewrite (Hq l Hl), head_lookup.
    by apply selected_voice_onvoiceschanged.
Qed.

(** ** Stale options *)


(** ** What the script never does *)

Lemma effective_run {B} (field : Utterance → B) evs : ∀ σ,
  (∀ v u, field (with_voice v u) = field u) →
  (∀ t u, field (with_text t u) = field u) →
  field <$> deref (run evs σ) (speech (run evs σ)) = field <$> deref σ (speech σ).
Proof.
  induction evs as [|ev evs IH]; intros σ Hv Ht; [done|].
  simpl. rewrite IH by done. by apply effective_dispatch.
Qed.

Lemma effective_rate_loaded evs opts :
  effective_rate (run evs (init opts)) = Some 1%Qc.
Proof. unfold effective_rate. by rewrite effective_run. Qed.

Lemma listeners_run_prefix evs : ∀ σ,
  forallb is_listener evs = true → pending σ `prefix_of` pending (run evs σ).
Proof.
  induction evs as [|ev evs IH]; intros σ Hevs; [done|].
  simpl in *. apply andb_prop in Hevs as [Hev Hevs].
  etrans; [|by apply IH].
  destruct ev; simpl; rewrite ?pending_onchange; try done.
  by apply prefix_app_r.
Qed.

(** C4.  The script has no rate, pitch or volume setter: no event writes
    these properties of the utterance.  After every run they are what they
    were before it, and in a loaded page they are the ones the utterance was
    created with. *)
Theorem rate_pitch_volume_never_written (σ : Page) (evs : list Event) :
  effective_rate (run evs σ) = effective_rate σ ∧
  effective_pitch (run evs σ) = effective_pitch σ ∧
  effective_volume (run evs σ) = effective_volume σ ∧
  (∀ opts,
     effective_rate (run evs (init opts))
     = Some (rate new_SpeechSynthesisUtterance) ∧
     effective_pitch (run evs (init opts))
     = Some (pitch new_SpeechSynthesisUtterance) ∧
     effective_volume (run evs (init opts))
     = Some (volume new_SpeechSynthesisUtterance)).
Proof.
  unfold effective_rate, effective_pitch, effective_volume.
  repeat split; by rewrite effective_run.
Qed.

(** C4 as stated fails on the script.  After a reload, a pick in the select
    and a click with 15 typed in, the effective rate is still 1, and no run
    of the page at all takes it to the bound 10 or to the bound 0.1. *)
Lemma no_run_sets_the_rate :
  effective_rate
    (run [VoicesChanged [voice_A; voice_B]; Change 1; Click "15"] (init []))
  = Some 1%Qc ∧
  ¬ (∃ evs opts, effective_rate (run evs (init opts)) = Some (Q2Qc 10)) ∧
  ¬ (∃ evs opts, effective_rate (run evs (init opts)) = Some (Q2Qc (1 # 10))).
Proof.
  split; [reflexivity|].
  split; intros (evs & opts & Hrate);
    rewrite effective_rate_loaded in Hrate; by inversion Hrate.
Qed.

(** C8.  The script has no pause, resume or cancel: of the engine its
    listeners call [speak] only.  The reload handler and the change listener
    leave the queue as it is and the click listener adds one entry at the
    back, so whatever listeners run, the entries that were pending are still
    pending, in the same order and at the front. *)
Theorem listeners_only_enqueue (σ : Page) :
  (∀ snapshot, pending (onvoiceschanged snapshot σ) = pending σ) ∧
  (∀ value, pending (onchange value σ) = pending σ) ∧
  (∀ t, pending (onclick t σ) = pending σ ++ [speech σ]) ∧
  (∀ evs, forallb is_listener evs = true →
     pending σ `prefix_of` pending (run evs σ)).
Proof.
  split; [done|]. split; [intros value; apply pending_onchange|].
  split; [done|].
  intros evs. apply listeners_run_prefix.
Qed.

(** C8 as stated fails on the script.  After two clicks two utterances are
    pending, and no run of listeners clears the queue. *)
Lemma no_listener_clears_the_queue :
  pending page_two_clicks = [speech page_two_clicks; speech page_two_clicks] ∧
  ¬ (∃ evs, forallb is_listener evs = true ∧
            pending (run evs page_two_clicks) = []).
Proof.
  split; [reflexivity|]. intros (evs & Hevs & Hnil).
  pose proof (listeners_run_prefix evs page_two_clicks Hevs) as Hpre.
  rewrite Hnil in Hpre. by apply prefix_nil_inv in Hpre.
Qed.

(** * Concrete runs *)

Example page_B_chosen_voice : selected_voice page_B_chosen = Some voice_B.
Proof. reflexivity. Qed.

Example page_B_chosen_options :
  voiceSelect page_B_chosen = [mkOption "A" "0"; mkOption "B" "1"].
Proof. reflexivity. Qed.

(** The scenario of the specification: [B] is selected and the catalog
    reloads to [A] alone; the script selects [A]. *)
Example reload_without_B :
  selected_voice (dispatch page_B_chosen (VoicesChanged [voice_A])) = Some voice_A.
Proof. reflexivity. Qed.

(** The option of [B] outlives the reload, and picking it leaves no voice. *)
Example reload_without_B_stale_option :
  voiceSelect (dispatch page_B_chosen (VoicesChanged [voice_A]))
  = [mkOption "A" "0"; mkOption "B" "1"] ∧
  selected_voice (run [VoicesChanged [voice_A]; Change 1] page_B_chosen) = None.
Proof. split; reflexivity. Qed.

(** Both entries of the queue are the one utterance, which reads ["two"]. *)
Example page_two_clicks_queue :
  pending page_two_clicks = [speech page_two_clicks; speech page_two_clicks] ∧
  current_text page_two_clicks = Some "two"%string.
Proof. split; reflexivity. Qed.

(** The engine is done with the first entry; the second is spoken next, with
    the text of the last click. *)
Example page_two_clicks_then_done :
  pending (dispatch page_two_clicks UtteranceDone) = [speech page_two_clicks] ∧
  current_text (dispatch page_two_clicks UtteranceDone) = Some "two"%string.
Proof. split; reflexivity. Qed.

(** * The theorems at concrete pages *)

Lemma catalog_reload_resets_voice_witness :
  speech_allocated page_B_chosen ∧
  (voices (onCatalogReady [voice_A; voice_B] page_B_chosen)
   = [voice_A; voice_B] ∧
   selected_voice (onCatalogReady [voice_A; voice_B] page_B_chosen)
   = head [voice_A; voice_B] ∧
   (∀ v, selected_voice (onCatalogReady [voice_A; voice_B] page_B_chosen) = Some v →
      v ∈ [voice_A; voice_B]) ∧
   (∀ evs v,
      selected_voice (run evs (onCatalogReady [voice_A; voice_B] page_B_chosen))
      = Some v →
      v ∈ voices (run evs (onCatalogReady [voice_A; voice_B] page_B_chosen))) ∧
   (∀ chosen first,
      selected_voice page_B_chosen = Some chosen →
      chosen ∈ [voice_A; voice_B] →
      head [voice_A; voice_B] = Some first →
      selected_voice (onCatalogReady [voice_A; voice_B] page_B_chosen)
      = Some first)).
Proof.
  split.
  - exists (mkUtterance "" (Some voice_B) 1%Qc 1%Qc 1%Qc). reflexivity.
  - apply (catalog_reload_resets_voice page_B_chosen [voice_A; voice_B]).
    exists (mkUtterance "" (Some voice_B) 1%Qc 1%Qc 1%Qc). reflexivity.
Defined.

Lemma empty_text_is_enqueued_witness :
  speech_allocated page_two_clicks ∧
  (onclick "" page_two_clicks = speak (setText "" page_two_clicks) ∧
   pending (speak (setText "" page_two_clicks))
   = pending page_two_clicks ++ [speech page_two_clicks] ∧
   list.last (pending (speak (setText "" page_two_clicks)))
   = Some (speech page_two_clicks) ∧
   text <$> deref (speak (setText "" page_two_clicks)) (speech page_two_clicks)
   = Some ""%string).
Proof.
  split.
  - exists (mkUtterance "two" (Some voice_A) 1%Qc 1%Qc 1%Qc). reflexivity.
  - apply (empty_text_is_enqueued page_two_clicks).
    exists (mkUtterance "two" (Some voice_A) 1%Qc 1%Qc 1%Qc). reflexivity.
Defined.

Lemma one_shared_utterance_witness :
  reachable page_two_clicks ∧
  (dom (heap page_two_clicks) = {[speech page_two_clicks]} ∧
   speech page_two_clicks = speech (init []) ∧
   (∀ ev, speech (dispatch page_two_clicks ev) = speech page_two_clicks ∧
          dom (heap (dispatch page_two_clicks ev)) = dom (heap page_two_clicks)) ∧
   pending (speak page_two_clicks)
   = pending page_two_clicks ++ [speech page_two_clicks] ∧
   (∀ l, l ∈ pending page_two_clicks → l = speech page_two_clicks) ∧
   (∀ t l, l ∈ pending (setText t page_two_clicks) →
      text <$> deref (setText t page_two_clicks) l = Some t) ∧
   (∀ t l, l ∈ pending (onclick t page_two_clicks) →
      text <$> deref (onclick t page_two_clicks) l = Some t) ∧
   (∀ value l, l ∈ pending (setVoice value page_two_clicks) →
      deref (setVoice value page_two_clicks) l ≫= voice
      = selected_voice (setVoice value page_two_clicks) ∧
      deref (setVoice value page_two_clicks) l ≫= voice
      = match js_read (voices page_two_clicks) value with
        | JsElement v => Some v
        | JsUndefined => None
        | JsProperty => selected_voice page_two_clicks
        end) ∧
   (∀ snapshot l, l ∈ pending (onCatalogReady snapshot page_two_clicks) →
      deref (onCatalogReady snapshot page_two_clicks) l ≫= voice
      = head snapshot)).
Proof.
  assert (reachable page_two_clicks) as Hreach.
  { apply (reachable_step _ (Click "two")), (reachable_step _ (Click "one")),
      (reachable_step _ (VoicesChanged [voice_A; voice_B])), reachable_init. }
  split; [exact Hreach|].
  apply (one_shared_utterance page_two_clicks Hreach).
Defined.

(** * Further properties of the script *)

(** ** The select and the catalog *)

Lemma catalog_mirrored_dispatch σ ev :
  catalog_mirrored σ → catalog_mirrored (dispatch σ ev).
Proof.
  intros Hσ. destruct ev as [vs|k|t|]; try exact Hσ.
  - intros i v Hi. cbn [dispatch onvoiceschanged voices voiceSelect] in *.
    rewrite forEach_options_lookup by lia.
    pose proof (lookup_lt_Some _ _ _ Hi).
    by rewrite decide_True, Nat.sub_0_r, Hi by lia.
  - intros i v. cbn [dispatch].
    rewrite voices_onchange, voiceSelect_onchange. apply Hσ.
Qed.

Lemma reachable_catalog_mirrored σ : reachable σ → catalog_mirrored σ.
Proof.
  induction 1 as [opts|σ ev _ IH]; [|by apply catalog_mirrored_dispatch].
  intros i v Hi. by destruct i.
Qed.

(** X1.  In every state of a run, whatever the select held when the page
    loaded, the option at the position of a voice of the current catalog is
    the one line 14 wrote for it, and picking it selects that voice. *)
Theorem pick_selects_catalog_voice (σ : Page) (k : nat) (v : Voice) :
  reachable σ →
  voices σ !! k = Some v →
  voiceSelect σ !! k = Some (new_Option (name v) k) ∧
  selected_voice (dispatch σ (Change k)) = Some v.
Proof.
  intros Hreach Hk.
  pose proof (reachable_catalog_mirrored σ Hreach k v Hk) as Hopt.
  split; [done|]. cbn [dispatch].
  unfold select_value. rewrite Hopt. simpl.
  rewrite selected_voice_onchange_index
    by apply page_inv_allocated, reachable_inv, Hreach.
  done.
Qed.

Lemma forEach_options_fresh vs opts :
  (length opts ≤ length vs)%nat →
  forEach_options 0 vs opts = imap (λ i v, new_Option (name v) i) vs.
Proof.
  intros Hlen. apply list_eq. intros j.
  rewrite forEach_options_lookup, list_lookup_imap by lia.
  rewrite Nat.sub_0_r. case_decide as Hj; [done|].
  rewrite !lookup_ge_None_2 by lia. done.
Qed.

(** X2.  When the select has no more options than the snapshot has voices
    (so on the first report, and whenever the catalog does not shrink), the
    reload leaves exactly one option per voice, in catalog order, and a pick
    at any position selects the voice at that position: none past the end. *)
Theorem reload_mirrors_catalog (σ : Page) (snapshot : list Voice) :
  speech_allocated σ →
  (length (voiceSelect σ) ≤ length snapshot)%nat →
  voiceSelect (onvoiceschanged snapshot σ)
  = imap (λ i v, new_Option (name v) i) snapshot ∧
  ∀ k, selected_voice (dispatch (onvoiceschanged snapshot σ) (Change k))
       = snapshot !! k.
Proof.
  intros Halloc Hlen.
  assert (voiceSelect (onvoiceschanged snapshot σ)
          = imap (λ i v, new_Option (name v) i) snapshot) as Hopts.
  { by apply forEach_options_fresh. }
  split; [done|]. intros k. cbn [dispatch].
  pose proof (speech_allocated_dispatch σ (VoicesChanged snapshot) Halloc)
    as Halloc'.
  unfold select_value. rewrite Hopts, list_lookup_imap.
  destruct (snapshot !! k) as [v|] eqn:Hk; simpl.
  - by rewrite selected_voice_onchange_index.
  - by rewrite selected_voice_onchange_empty.
Qed.

Lemma select_length_run evs : ∀ σ,
  length (voiceSelect (run evs σ))
  = (length (voiceSelect σ) `max` largest_snapshot evs)%nat.
Proof.
  induction evs as [|ev evs IH]; intros σ; simpl; [lia|].
  rewrite IH. destruct ev as [vs|k|t|]; simpl;
    rewrite ?voiceSelect_onchange; try done.
  rewrite forEach_options_length by lia. simpl. lia.
Qed.

(** X3.  The select only grows: after any run it has as many options as it
    had when the page loaded or as the longest snapshot reported since,
    whichever is larger, however short the current catalog is. *)
Theorem select_size_is_largest_snapshot (opts : list DomOption) (evs : list Event) :
  length (voiceSelect (run evs (init opts)))
  = (length opts `max` largest_snapshot evs)%nat ∧
  (length (voices (run evs (init opts))) ≤ length (voiceSelect (run evs (init opts))))%nat.
Proof.
  split; [apply select_length_run|].
  assert (reachable (run evs (init opts))) as Hreach
    by apply reachable_run, reachable_init.
  pose proof (reachable_catalog_mirrored _ Hreach) as Hmirror.
  destruct (decide (length (voices (run evs (init opts))) = 0)%nat) as [->|Hn];
    [lia|].
  destruct (lookup_lt_is_Some_2 (voices (run evs (init opts)))
              (pred (length (voices (run evs (init opts)))))) as [v Hv]; [lia|].
  apply Hmirror, lookup_lt_Some in Hv. lia.
Qed.

(** X4.  In a page whose select was empty when the script loaded, every
    option, a stale one included, carries the decimal form of its own
    position as value.  A pick therefore reads the catalog at the position of
    the picked option and nowhere else: the voice there, or none when the
    catalog ends before it or when there is no such option. *)
Theorem pick_reads_position (evs : list Event) (k : nat) :
  (∀ o, voiceSelect (run evs (init [])) !! k = Some o → opt_value o = pretty k) ∧
  selected_voice (dispatch (run evs (init [])) (Change k))
  = (voiceSelect (run evs (init [])) !! k ≫= λ _, voices (run evs (init [])) !! k) ∧
  ((length (voices (run evs (init []))) ≤ k)%nat ∨
   (length (voiceSelect (run evs (init []))) ≤ k)%nat →
   selected_voice (dispatch (run evs (init [])) (Change k)) = None).
Proof.
  assert (selected_voice (dispatch (run evs (init [])) (Change k))
    = (voiceSelect (run evs (init [])) !! k ≫= λ _, voices (run evs (init [])) !! k))
    as Hpick.
  { apply change_reads_position, page_inv_allocated, reachable_inv,
      reachable_run, reachable_init. }
  split; [|split; [done|]].
  - intros o. apply (values_are_positions_run evs _ values_are_positions_init).
  - rewrite Hpick. intros [Hk|Hk].
    + rewrite (lookup_ge_None_2 (voices _)) by done.
      by destruct (voiceSelect _ !! k).
    + by rewrite (lookup_ge_None_2 (voiceSelect _)) by done.
Qed.

(** ** How the listeners compose *)

Lemma alter_text_voice t x l (h : gmap loc Utterance) :
  alter (with_text t) l (alter (with_voice x) l h)
  = alter (with_voice x) l (alter (with_text t) l h).
Proof.
  apply map_eq. intros j. destruct (decide (j = l)) as [->|Hne].
  - rewrite !lookup_alter_eq. by destruct (h !! l).
  - by rewrite !lookup_alter_ne.
Qed.

(** X5.  A click commutes with a pick and with a reload: the text and the
    queue on one side, the voice, the catalog and the select on the other do
    not depend on each other, so either order gives the same page. *)
Theorem click_commutes (σ : Page) (t value : string) (snapshot : list Voice) :
  onclick t (onchange value σ) = onchange value (onclick t σ) ∧
  onclick t (onvoiceschanged snapshot σ) = onvoiceschanged snapshot (onclick t σ).
Proof.
  split.
  - unfold onchange, change_listener.
    change (voices (onclick t σ)) with (voices σ).
    destruct (js_read (voices σ) value); simpl; [| |done];
      unfold onclick, speak, setText, write_voice; simpl; f_equal;
      apply alter_text_voice.
  - unfold onclick, speak, setText, onvoiceschanged. simpl.
    f_equal. apply alter_text_voice.
Qed.

Lemma current_text_dispatch σ ev :
  current_text (dispatch σ ev)
  = match ev with
    | Click t => (λ _, t) <$> current_text σ
    | _ => current_text σ
    end.
Proof.
  unfold current_text, deref.
  destruct ev as [vs|k|t|]; simpl; try pick_cases; simpl; try done;
    rewrite lookup_alter_eq; by destruct (heap σ !! speech σ).
Qed.

Lemma current_text_run evs : ∀ σ,
  current_text (run evs σ) = (λ t0, last_click t0 evs) <$> current_text σ.
Proof.
  induction evs as [|ev evs IH]; intros σ; simpl.
  - by destruct (current_text σ).
  - rewrite IH, current_text_dispatch.
    destruct ev; try done. by destruct (current_text σ).
Qed.

(** X6.  The text of the utterance is the textarea as it was at the latest
    click, and the empty string before the first click; reloads, picks and
    the engine's progress never change it.  Every utterance still pending is
    that one utterance, so it reads the text of the latest click too. *)
Theorem text_is_last_click (opts : list DomOption) (evs : list Event) :
  current_text (run evs (init opts)) = Some (last_click "" evs) ∧
  ∀ l, l ∈ pending (run evs (init opts)) →
       text <$> deref (run evs (init opts)) l = Some (last_click "" evs).
Proof.
  assert (current_text (run evs (init opts)) = Some (last_click "" evs)) as Htext.
  { by rewrite current_text_run. }
  split; [done|]. intros l Hl.
  assert (page_inv (run evs (init opts))) as [_ Hq]
    by apply reachable_inv, reachable_run, reachable_init.
  by rewrite (Hq l Hl).
Qed.

Lemma no_voice_run evs : ∀ σ,
  voices σ = [] → selected_voice σ = None →
  forallb reports_no_voice evs = true →
  selected_voice (run evs σ) = None ∧ voices (run evs σ) = [].
Proof.
  induction evs as [|ev evs IH]; intros σ Hvs Hsel Hevs; [done|].
  simpl in *. apply andb_prop in Hevs as [Hev Hevs].
  apply IH; [| |done].
  - destruct ev as [[|v vs]|k|t|]; try done. simpl. by rewrite voices_onchange.
  - destruct ev as [[|v vs]|k|t|]; try done; simpl.
    + unfold onvoiceschanged. rewrite selected_voice_with_voice.
      by destruct (heap σ !! speech σ).
    + unfold onchange, change_listener, js_read. rewrite Hvs. simpl.
      destruct (is_array_property _); simpl; [done|].
      rewrite selected_voice_write_voice. by destruct (deref σ (speech σ)).
    + change (selected_voice (onclick t σ)) with (selected_voice (setText t σ)).
      by rewrite selected_voice_setText.
Qed.

(** X7.  Until the platform reports a catalog with a voice in it, the
    utterance has no voice and the catalog is empty, whatever the user picks
    or clicks and however often an empty catalog is reported: what is spoken
    then is spoken with the engine's default voice. *)
Theorem no_voice_until_reported (opts : list DomOption) (evs : list Event) :
  forallb reports_no_voice evs = true →
  selected_voice (run evs (init opts)) = None ∧
  voices (run evs (init opts)) = [] ∧
  ∀ t l, l ∈ pending (dispatch (run evs (init opts)) (Click t)) →
         deref (dispatch (run evs (init opts)) (Click t)) l ≫= voice = None.
Proof.
  intros Hevs.
  destruct (no_voice_run evs (init opts) eq_refl eq_refl Hevs) as [Hsel Hvs].
  split; [done|]. split; [done|]. intros t l Hl.
  assert (page_inv (dispatch (run evs (init opts)) (Click t))) as [_ Hq].
  { apply reachable_inv, reachable_step, reachable_run, reachable_init. }
  rewrite (Hq l Hl).
  change (selected_voice (onclick t (run evs (init opts))) = None).
  change (selected_voice (onclick t (run evs (init opts))))
    with (selected_voice (setText t (run evs (init opts)))).
  by rewrite selected_voice_setText.
Qed.

Lemma speech_dispatch σ ev : speech (dispatch σ ev) = speech σ.
Proof. destruct ev; simpl; rewrite ?speech_onchange; done. Qed.

Lemma pending_listeners_run evs : ∀ σ,
  forallb is_listener evs = true →
  pending (run evs σ) = pending σ ++ replicate (clicks evs) (speech σ).
Proof.
  induction evs as [|ev evs IH]; intros σ Hevs; simpl.
  - by rewrite app_nil_r.
  - simpl in Hevs. apply andb_prop in Hevs as [Hev Hevs].
    rewrite IH, speech_dispatch by done.
    destruct ev as [vs|k|t|]; simpl; rewrite ?pending_onchange; try done.
    unfold pending, speechSynthesis_speak. simpl.
    by rewrite <-(assoc_L (++)).
Qed.

Lemma pending_length_run evs : ∀ σ,
  (length (pending (run evs σ)) ≤ length (pending σ) + clicks evs)%nat.
Proof.
  induction evs as [|ev evs IH]; intros σ; simpl; [lia|].
  etrans; [apply IH|].
  destruct ev as [vs|k|t|]; cbn [dispatch clicks].
  - change (pending (onvoiceschanged vs σ)) with (pending σ). lia.
  - rewrite pending_onchange. lia.
  - change (pending (onclick t σ)) with (pending σ ++ [speech σ]).
    rewrite length_app. simpl. lia.
  - unfold pending, utterance_done. simpl.
    destruct (speechSynthesis σ); simpl; lia.
Qed.

(** X8.  The script calls [speak] once per click and at no other time: while
    the engine finishes nothing, a run adds to the queue exactly one entry
    per click, each the script's utterance, behind what was pending; and in
    any run the queue holds at most one entry more per click. *)
Theorem one_entry_per_click (σ : Page) (evs : list Event) :
  (forallb is_listener evs = true →
   pending (run evs σ) = pending σ ++ replicate (clicks evs) (speech σ)) ∧
  (length (pending (run evs σ)) ≤ length (pending σ) + clicks evs)%nat.
Proof.
  split; [apply pending_listeners_run|apply pending_length_run].
Qed.

(** X9.  The change listener returns with voice [v] selected exactly when
    the value of the select is the decimal form of a position inside the
    catalog that holds [v].  It throws a [TypeError], leaving the page as it
    was, exactly when the value names a property of the array and no
    element.  For every other value it returns and leaves no voice. *)
Theorem pick_selects_iff_index (σ : Page) (value : string) (v : Voice) :
  speech_allocated σ →
  (change_listener value σ = Returns (onchange value σ) ∧
   selected_voice (onchange value σ) = Some v ↔
   ∃ n, value = pretty n ∧ voices σ !! n = Some v) ∧
  (change_listener value σ = Throws TypeError σ ↔
   js_get (voices σ) value = None ∧ is_array_property value = true) ∧
  (js_get (voices σ) value = None → is_array_property value = false →
   change_listener value σ = Returns (onchange value σ) ∧
   selected_voice (onchange value σ) = None).
Proof.
  intros Halloc. pose proof (selected_voice_onchange value σ Halloc) as Hsel.
  unfold onchange in *. unfold change_listener, js_read in *.
  destruct (js_get (voices σ) value) as [v'|] eqn:Hget;
    [|destruct (is_array_property value) eqn:Hprop]; simpl in *.
  - split; [|split; [|done]].
    + split.
      * intros [_ Hv]. rewrite Hsel in Hv. injection Hv as ->.
        apply js_get_from_Some in Hget as (n & -> & Hn). by exists n.
      * intros (n & -> & Hn). rewrite js_get_pretty, Hn in Hget.
        injection Hget as ->. by rewrite Hsel.
    + split; [done|]. by intros [? _].
  - split; [|split; [|done]].
    + split; [by intros [? _]|].
      intros (n & -> & Hn). by rewrite is_array_property_pretty in Hprop.
    + done.
  - split; [|split; [|done]].
    + split; [intros [_ Hv]; by rewrite Hsel in Hv|].
      intros (n & -> & Hn). by rewrite js_get_pretty, Hn in Hget.
    + split; [done|]. by intros [_ ?].
Qed.

Lemma alter_voice_voice x y l (h : gmap loc Utterance) :
  alter (with_voice x) l (alter (with_voice y) l h) = alter (with_voice x) l h.
Proof.
  apply map_eq. intros j. destruct (decide (j = l)) as [->|Hne].
  - rewrite !lookup_alter_eq. by destruct (h !! l).
  - by rewrite !lookup_alter_ne.
Qed.

Lemma write_voice_onchange x value σ :
  write_voice x (onchange value σ) = write_voice x σ.
Proof.
  destruct (onchange_cases value σ) as [->|[y ->]]; [done|].
  unfold write_voice. simpl. f_equal. apply alter_voice_voice.
Qed.

(** X10.  A pick leaves no trace once the voice is written again: a reload
    after a pick gives the very page the reload alone gives, and of two picks
    in a row only the second counts when its setter accepts what was read.
    When the second pick throws, it changes nothing and the first stands. *)
Theorem later_choice_overrides (σ : Page) (v1 v2 : string) (snapshot : list Voice) :
  onvoiceschanged snapshot (onchange v1 σ) = onvoiceschanged snapshot σ ∧
  (js_read (voices σ) v2 ≠ JsProperty →
   onchange v2 (onchange v1 σ) = onchange v2 σ) ∧
  (js_read (voices σ) v2 = JsProperty →
   onchange v2 (onchange v1 σ) = onchange v1 σ).
Proof.
  split.
  { destruct (onchange_cases v1 σ) as [->|[y ->]]; [done|].
    unfold onvoiceschanged, write_voice. simpl. f_equal.
    apply alter_voice_voice. }
  unfold onchange at 1 3 4. unfold change_listener.
  rewrite voices_onchange.
  destruct (js_read (voices σ) v2); simpl;
    (split; [intros Hread|intros [=]]);
    try (by destruct Hread); try done; apply write_voice_onchange.
Qed.

(** * The further properties at concrete pages *)

Lemma pick_selects_catalog_voice_witness :
  reachable page_B_chosen ∧
  voices page_B_chosen !! 1%nat = Some voice_B ∧
  (voiceSelect page_B_chosen !! 1%nat = Some (new_Option (name voice_B) 1) ∧
   selected_voice (dispatch page_B_chosen (Change 1)) = Some voice_B).
Proof.
  assert (reachable page_B_chosen) as Hreach.
  { apply (reachable_step _ (Change 1)),
      (reachable_step _ (VoicesChanged [voice_A; voice_B])), reachable_init. }
  split; [exact Hreach|]. split; [reflexivity|].
  apply (pick_selects_catalog_voice page_B_chosen 1 voice_B Hreach).
  reflexivity.
Defined.

Lemma reload_mirrors_catalog_witness :
  speech_allocated (init []) ∧
  (length (voiceSelect (init [])) ≤ length [voice_A; voice_B])%nat ∧
  (voiceSelect (onvoiceschanged [voice_A; voice_B] (init []))
   = imap (λ i v, new_Option (name v) i) [voice_A; voice_B] ∧
   ∀ k, selected_voice
          (dispatch (onvoiceschanged [voice_A; voice_B] (init [])) (Change k))
        = [voice_A; voice_B] !! k).
Proof.
  split; [exists new_SpeechSynthesisUtterance; reflexivity|].
  split; [simpl; lia|].
  apply (reload_mirrors_catalog (init []) [voice_A; voice_B]).
  - exists new_SpeechSynthesisUtterance. reflexivity.
  - simpl. lia.
Defined.

Lemma no_voice_until_reported_witness :
  forallb reports_no_voice [Click "hi"; Change 0; VoicesChanged []] = true ∧
  (selected_voice (run [Click "hi"; Change 0; VoicesChanged []] (init [])) = None ∧
   voices (run [Click "hi"; Change 0; VoicesChanged []] (init [])) = [] ∧
   ∀ t l,
     l ∈ pending
           (dispatch (run [Click "hi"; Change 0; VoicesChanged []] (init []))
              (Click t)) →
     deref (dispatch (run [Click "hi"; Change 0; VoicesChanged []] (init []))
              (Click t)) l ≫= voice = None).
Proof.
  split; [reflexivity|].
  apply (no_voice_until_reported [] [Click "hi"; Change 0; VoicesChanged []]).
  reflexivity.
Defined.

Lemma pick_selects_iff_index_witness :
  speech_allocated page_B_chosen ∧
  ((change_listener "0" page_B_chosen = Returns (onchange "0" page_B_chosen) ∧
    selected_voice (onchange "0" page_B_chosen) = Some voice_A ↔
    ∃ n, "0"%string = pretty n ∧ voices page_B_chosen !! n = Some voice_A) ∧
   (change_listener "0" page_B_chosen = Throws TypeError page_B_chosen ↔
    js_get (voices page_B_chosen) "0" = None ∧ is_array_property "0" = true) ∧
   (js_get (voices page_B_chosen) "0" = None → is_array_property "0" = false →
    change_listener "0" page_B_chosen = Returns (onchange "0" page_B_chosen) ∧
    selected_voice (onchange "0" page_B_chosen) = None)).
Proof.
  split.
  - exists (mkUtterance "" (Some voice_B) 1%Qc 1%Qc 1%Qc). reflexivity.
  - apply (pick_selects_iff_index page_B_chosen "0" voice_A).
    exists (mkUtterance "" (Some voice_B) 1%Qc 1%Qc 1%Qc). reflexivity.
Defined.
